(** * gremp: a shallow embedding of [src/src/lib.rs] and [src/src/main.rs]

    Text is modelled as the sequence of Unicode scalar values of a Rust
    [&str] / [String].  The operations [str::lines], [str::contains] and
    [str::to_lowercase] of the Rust standard library are written out as the
    library implements them; the character tables [to_lower], [Cased] and
    [Case_Ignorable] of [core::unicode] are parameters of the development. *)

From Stdlib Require Import String Ascii Strings.Byte.
From Stdlib Require Import List NArith ZArith Arith Lia Bool.
From Stdlib Require Import Sorting.Sorted.
Import ListNotations.

Open Scope list_scope.

(** ** Characters and strings *)

(** A Unicode scalar value. *)
Abbreviation char := N (only parsing).
(** A Rust string slice, as its sequence of scalar values. *)
Abbreviation str := (list N) (only parsing).

Definition LF : char := 10%N.
Definition CR : char := 13%N.

(** ASCII literal to [str]. *)
Definition lit (s : string) : str :=
  map (fun a => N.of_nat (nat_of_ascii a)) (list_ascii_of_string s).

(** ** [str::contains] *)

Fixpoint starts_with (s p : str) {struct p} : bool :=
  match p, s with
  | [], _ => true
  | x :: p', y :: s' => N.eqb x y && starts_with s' p'
  | _ :: _, [] => false
  end.

(** [haystack.contains(needle)]: some position of [haystack] starts an
    occurrence of [needle]. *)
Fixpoint contains (haystack needle : str) : bool :=
  starts_with haystack needle ||
  match haystack with
  | [] => false
  | _ :: h' => contains h' needle
  end.

(** ** [str::lines] *)

(** [split_inclusive('\n')]: pieces each ending in ['\n'], except possibly the
    last; an empty final piece is not produced. *)
Fixpoint split_inclusive_lf (s : str) : list str :=
  match s with
  | [] => []
  | c :: s' =>
      if N.eqb c LF then [c] :: split_inclusive_lf s'
      else match split_inclusive_lf s' with
           | [] => [[c]]
           | l :: ls => (c :: l) :: ls
           end
  end.

(** [s.strip_suffix(c)] for a one-character suffix. *)
Definition strip_suffix (c : char) (s : str) : option str :=
  match rev s with
  | x :: r => if N.eqb x c then Some (rev r) else None
  | [] => None
  end.

(** The map applied by [str::lines] to every piece: drop a final ['\n'] and
    then, only in that case, a final ['\r']. *)
Definition strip_line_ending (line : str) : str :=
  match strip_suffix LF line with
  | None => line
  | Some line' =>
      match strip_suffix CR line' with
      | None => line'
      | Some line'' => line''
      end
  end.

Definition lines (s : str) : list str :=
  map strip_line_ending (split_inclusive_lf s).

(** [.enumerate().map(|(idx, line)| (idx + 1, line))], starting from [k]. *)
Fixpoint number_from (k : nat) (ls : list str) : list (nat * str) :=
  match ls with
  | [] => []
  | l :: ls' => (k, l) :: number_from (S k) ls'
  end.

(** [format!("{}", n)] for a [usize]. *)
Fixpoint decimal_digits (fuel n : nat) (acc : str) : str :=
  match fuel with
  | 0 => acc
  | S fuel' =>
      let acc' := N.of_nat (48 + n mod 10) :: acc in
      if n <? 10 then acc' else decimal_digits fuel' (n / 10) acc'
  end.

Definition decimal (n : nat) : str := decimal_digits (S n) n [].

(** ** Rust results and UTF-8 *)

Inductive result (A E : Type) : Type :=
| Ok (a : A)
| Err (e : E).
Arguments Ok {A E} a.
Arguments Err {A E} e.

Definition is_err {A E} (r : result A E) : bool :=
  match r with Ok _ => false | Err _ => true end.

Definition cont_byte (y : N) : bool := (128 <=? y)%N && (y <=? 191)%N.

(** [str::from_utf8] (well-formed UTF-8 as the standard library checks it),
    returning the decoded scalar values. *)
Fixpoint utf8_decode (bs : list byte) : option str :=
  match bs with
  | [] => Some []
  | b0 :: r =>
      let x := Byte.to_N b0 in
      if (x <? 128)%N then option_map (cons x) (utf8_decode r)
      else if (194 <=? x)%N && (x <=? 223)%N then
        match r with
        | b1 :: r1 =>
            let y := Byte.to_N b1 in
            if cont_byte y
            then option_map (cons ((x - 192) * 64 + (y - 128))%N) (utf8_decode r1)
            else None
        | [] => None
        end
      else if (224 <=? x)%N && (x <=? 239)%N then
        match r with
        | b1 :: b2 :: r2 =>
            let y := Byte.to_N b1 in
            let z := Byte.to_N b2 in
            let lo := if (x =? 224)%N then 160%N else 128%N in
            let hi := if (x =? 237)%N then 159%N else 191%N in
            if (lo <=? y)%N && (y <=? hi)%N && cont_byte z
            then option_map
                   (cons ((x - 224) * 4096 + (y - 128) * 64 + (z - 128))%N)
                   (utf8_decode r2)
            else None
        | _ => None
        end
      else if (240 <=? x)%N && (x <=? 244)%N then
        match r with
        | b1 :: b2 :: b3 :: r3 =>
            let y := Byte.to_N b1 in
            let z := Byte.to_N b2 in
            let t := Byte.to_N b3 in
            let lo := if (x =? 240)%N then 144%N else 128%N in
            let hi := if (x =? 244)%N then 143%N else 191%N in
            if (lo <=? y)%N && (y <=? hi)%N && cont_byte z && cont_byte t
            then option_map
                   (cons ((x - 240) * 262144 + (y - 128) * 4096
                          + (z - 128) * 64 + (t - 128))%N)
                   (utf8_decode r3)
            else None
        | _ => None
        end
      else None
  end.

(** ** [std::env::var] *)

(** The process environment: variable names and values are OS strings
    (bytes on Unix). *)
Definition Env := list byte -> option (list byte).

Inductive VarError := NotPresent | NotUnicode (v : list byte).

Definition bytes_lit (s : string) : list byte :=
  map byte_of_ascii (list_ascii_of_string s).

Definition env_var (env : Env) (key : list byte) : result str VarError :=
  match env key with
  | None => Err NotPresent
  | Some v =>
      match utf8_decode v with
      | Some s => Ok s
      | None => Err (NotUnicode v)
      end
  end.

(** ** [Config::new] *)

Record Config := mkConfig {
  pattern : str;
  filename : str;
  case_sensitive : bool
}.

(** [args.next()] on an iterator given by the list of items it yields. *)
Definition next (args : list str) : option str * list str :=
  match args with
  | [] => (None, [])
  | a :: args' => (Some a, args')
  end.

Definition config_new (env : Env) (args : list str) : result Config string :=
  let '(_, args) := next args in
  match next args with
  | (None, _) => Err "Didn't get pattern to match"%string
  | (Some pattern, args) =>
      match next args with
      | (None, _) => Err "Didn't get filename"%string
      | (Some filename, _) =>
          let case_sensitive := is_err (env_var env (bytes_lit "CASE_INSENSITIVE")) in
          Ok (mkConfig pattern filename case_sensitive)
      end
  end.

(** ** Input and output

    An [io::Error] as the program meets one: an error of the operating
    system, with its number and the text the C library gives for it
    ([strerror]), or the failed UTF-8 check of [fs::read_to_string]. *)
Inductive io_error :=
| Os (code : nat) (description : str)
| InvalidUtf8.

(** Its [Display]: ["{description} (os error {code})"] for an error of the
    operating system, the fixed message of the UTF-8 check otherwise. *)
Definition io_error_message (e : io_error) : str :=
  match e with
  | Os code description => description ++ lit " (os error " ++ decimal code ++ lit ")"
  | InvalidUtf8 => lit "stream did not contain valid UTF-8"
  end.

Inductive stream := StdoutStream | StderrStream.

(** The observable actions of the process.  [Panic message] is the report of
    the panic hook on standard error; the hook ignores a failure of that
    write. *)
Inductive event :=
| ReadFile (path : str)
| Stdout (text : str)
| Stderr (text : str)
| Panic (message : str)
| Exit (code : Z).

(** A world holds the file system, seen through [fs::read], the outcome of
    writes to the standard streams and the trace of the observable actions.
    [write_error w s t] is the error a write to [s] fails with when the
    actions [t] have happened, [None] when the write goes through: a pipe
    whose reader has gone fails the writes from then on ([EPIPE]; Rust
    ignores [SIGPIPE]), [/dev/full] fails every write. *)
Record World := mkWorld {
  files : str -> result (list byte) io_error;
  write_error : stream -> list event -> option io_error;
  trace : list event
}.

(** The world after the actions [es]. *)
Definition extend (w : World) (es : list event) : World :=
  mkWorld (files w) (write_error w) (trace w ++ es).

(** A computation of the process; its result is [None] when the process ends
    in it, by [process::exit] or by a panic of the main thread. *)
Definition IO (A : Type) : Type := World -> option A * World.

Definition ret {A} (a : A) : IO A := fun w => (Some a, w).

Definition bind {A B} (m : IO A) (k : A -> IO B) : IO B :=
  fun w => match m w with
           | (Some a, w') => k a w'
           | (None, w') => (None, w')
           end.

Notation "x <- m ;; k" := (bind m (fun x => k))
  (at level 61, m at next level, right associativity).

Definition emit (e : event) : IO unit :=
  fun w => (Some tt, extend w [e]).

(** [fs::read_to_string]: the read itself, then the UTF-8 check. *)
Definition read_to_string (path : str) : IO (result str io_error) :=
  _ <- emit (ReadFile path) ;;
  fun w =>
    (Some match files w path with
          | Err e => Err e
          | Ok bs => match utf8_decode bs with
                     | Some s => Ok s
                     | None => Err InvalidUtf8
                     end
          end, w).

(** [process::exit]. *)
Definition exit {A} (code : Z) : IO A :=
  fun w => (None, extend w [Exit code]).

(** [panic!] in the main thread: the hook reports the message, and the
    runtime ends the process with status 101. *)
Definition panic {A} (message : str) : IO A :=
  fun w => (None, extend w [Panic message; Exit 101%Z]).

(** [print_to] of [std::io::stdio], behind [println!] and [eprintln!]: the
    text and a newline go out in one write, which goes through or fails as
    a whole; a failed write panics with ["failed printing to {label}: {e}"]. *)
Definition print_to (s : stream) (label : str) (out : str -> event) (text : str) : IO unit :=
  fun w =>
    match write_error w s (trace w) with
    | None => (Some tt, extend w [out (text ++ [LF])])
    | Some e => panic (lit "failed printing to " ++ label ++ lit ": " ++ io_error_message e) w
    end.

Definition println (text : str) : IO unit := print_to StdoutStream (lit "stdout") Stdout text.
Definition eprintln (text : str) : IO unit := print_to StderrStream (lit "stderr") Stderr text.

Fixpoint for_each {A} (f : A -> IO unit) (xs : list A) : IO unit :=
  match xs with
  | [] => ret tt
  | x :: xs' => _ <- f x ;; for_each f xs'
  end.

(** [Box<dyn Error>] as returned by [run]: only I/O errors reach it. *)
Inductive Error := IoError (e : io_error).

(** ** [str::to_lowercase] *)

Definition CAPITAL_SIGMA : char := 931%N.   (* U+03A3 *)
Definition SMALL_SIGMA : char := 963%N.     (* U+03C3 *)
Definition FINAL_SIGMA : char := 962%N.     (* U+03C2 *)

Section Gremp.

(** [core::unicode::conversions::to_lower], as the one to three characters it
    yields, and the [Cased] and [Case_Ignorable] properties. *)
Variable to_lower : char -> list char.
Variables Cased Case_Ignorable : char -> bool.

Fixpoint case_ignorable_then_cased (it : list char) : bool :=
  match it with
  | [] => false
  | c :: it' => if Case_Ignorable c then case_ignorable_then_cased it' else Cased c
  end.

(** The loop of [to_lowercase]; [before] is [self[..i]] reversed. *)
Fixpoint to_lowercase_from (before s : str) : str :=
  match s with
  | [] => []
  | c :: s' =>
      (if N.eqb c CAPITAL_SIGMA then
         [if case_ignorable_then_cased before
             && negb (case_ignorable_then_cased s')
          then FINAL_SIGMA else SMALL_SIGMA]
       else to_lower c)
      ++ to_lowercase_from (c :: before) s'
  end.

Definition to_lowercase (s : str) : str := to_lowercase_from [] s.

(** ** [search] and [search_case_insensitive] *)

Definition search (pattern contents : str) : list (nat * str) :=
  filter (fun '(_, line) => contains line pattern)
    (number_from 1 (lines contents)).

Definition search_case_insensitive (pattern contents : str) : list (nat * str) :=
  filter (fun '(_, line) => contains (to_lowercase line) (to_lowercase pattern))
    (number_from 1 (lines contents)).


(** ** [run] *)

(** [println!("{}. {}", line_no, line)] writes this text and a newline. *)
Definition record (line_no : nat) (line : str) : str :=
  decimal line_no ++ lit ". " ++ line.

Definition run (config : Config) : IO (result unit Error) :=
  r <- read_to_string (filename config) ;;
  match r with
  | Err e => ret (Err (IoError e))
  | Ok contents =>
      let results := if case_sensitive config
                     then search (pattern config) contents
                     else search_case_insensitive (pattern config) contents in
      _ <- for_each (fun '(line_no, line) => println (record line_no line)) results ;;
      ret (Ok tt)
  end.

(** ** [main] *)

(** When [main] returns ([Some tt]) the process ends with status 0. *)
Definition main (env : Env) (args : list str) : IO unit :=
  match config_new env args with
  | Err err =>
      _ <- eprintln (lit "Problem parsing arguments: " ++ lit err) ;;
      exit 1%Z
  | Ok config =>
      r <- run config ;;
      match r with
      | Err (IoError e) =>
          _ <- eprintln (lit "Encountered an error: " ++ io_error_message e) ;;
          exit 1%Z
      | Ok _ => ret tt
      end
  end.

End Gremp.

(** ** Sample character tables

    The entries of [to_lower], [Cased] and [Case_Ignorable] for Basic Latin
    and the Greek capitals and small letters; every other character is taken
    as uncased, not case-ignorable and its own lowercase.  On the characters
    used below these are the Unicode tables the standard library ships. *)

Definition sample_to_lower (c : char) : list char :=
  if (65 <=? c)%N && (c <=? 90)%N then [(c + 32)%N]
  else if (913 <=? c)%N && (c <=? 937)%N && negb (c =? 930)%N then [(c + 32)%N]
  else [c].

Definition sample_Cased (c : char) : bool :=
  ((65 <=? c)%N && (c <=? 90)%N) || ((97 <=? c)%N && (c <=? 122)%N)
  || ((913 <=? c)%N && (c <=? 937)%N && negb (c =? 930)%N)
  || ((945 <=? c)%N && (c <=? 969)%N).

Definition sample_Case_Ignorable (c : char) : bool :=
  existsb (N.eqb c) [39; 46; 58; 94; 96]%N.

Definition search_ci_sample :=
  search_case_insensitive sample_to_lower sample_Cased sample_Case_Ignorable.

Fixpoint bytes_eqb (a b : list byte) : bool :=
  match a, b with
  | [], [] => true
  | x :: a', y :: b' => Byte.eqb x y && bytes_eqb a' b'
  | _, _ => false
  end.

(** An environment in which [CASE_INSENSITIVE] is set to the one byte [0xFF],
    which is not UTF-8. *)
Definition env_non_unicode : Env :=
  fun key => if bytes_eqb key (bytes_lit "CASE_INSENSITIVE") then Some [xff] else None.

Definition env_empty : Env := fun _ => None.

(** A file system holding one file, [sample.txt], with the lines [Rust:] and
    [Trust me.]. *)
Definition not_found : io_error := Os 2 (lit "No such file or directory").

Definition sample_files (path : str) : result (list byte) io_error :=
  if list_eq_dec N.eq_dec path (lit "sample.txt")
  then Ok (bytes_lit "Rust:" ++ [x0a] ++ bytes_lit "Trust me.")
  else Err not_found.

(** The test inputs of [src/src/lib.rs]. *)
Definition contents_duct : str :=
  lit "Rust:" ++ [LF] ++ lit "Safe, fast, productive." ++ [LF] ++
  lit "Pick three." ++ [LF] ++ lit "Duct tape.".

Definition contents_trust : str :=
  lit "Rust:" ++ [LF] ++ lit "Safe, fast, productive." ++ [LF] ++
  lit "Pick three." ++ [LF] ++ lit "Trust me.".

(** Standard output and standard error take every write. *)
Definition world_sample : World := mkWorld sample_files (fun _ _ => None) [].

(** [ENOSPC], as for a stream sent to [/dev/full]. *)
Definition no_space : io_error := Os 28 (lit "No space left on device").

(** Standard error sent to [/dev/full]. *)
Definition world_stderr_full : World :=
  mkWorld sample_files
    (fun s _ => match s with StderrStream => Some no_space | StdoutStream => None end) [].

(** Standard output a pipe whose reader goes away after the first line. *)
Definition world_stdout_closed : World :=
  mkWorld sample_files
    (fun s t => match s with
                | StdoutStream =>
                    if existsb (fun e => match e with Stdout _ => true | _ => false end) t
                    then Some (Os 32 (lit "Broken pipe")) else None
                | StderrStream => None
                end) [].

Definition config_sample : Config :=
  mkConfig (lit "rUsT") (lit "sample.txt") false.

Definition config_missing : Config :=
  mkConfig (lit "pattern") (lit "filename") true.

Definition run_sample :=
  run sample_to_lower sample_Cased sample_Case_Ignorable.

(** The contents of [sample.txt] above, as bytes and as text. *)
Definition sample_bytes : list byte := bytes_lit "Rust:" ++ [x0a] ++ bytes_lit "Trust me.".

Definition sample_text : str := lit "Rust:" ++ [LF] ++ lit "Trust me.".

Definition args_trust : list str := [lit "gremp"; lit "Trust"; lit "sample.txt"].

Definition config_trust : Config := mkConfig (lit "Trust") (lit "sample.txt") true.

Definition args_ust : list str := [lit "gremp"; lit "ust"; lit "sample.txt"].

Definition config_ust : Config := mkConfig (lit "ust") (lit "sample.txt") true.

Definition args_missing : list str := [lit "gremp"; lit "pattern"; lit "filename"].

Definition main_sample :=
  main sample_to_lower sample_Cased sample_Case_Ignorable.

(** ** Reading the output back *)

(** [ls.join("\n")]. *)
Fixpoint join_lf (ls : list str) : str :=
  match ls with
  | [] => []
  | [l] => l
  | l :: ls' => l ++ LF :: join_lf ls'
  end.

Definition ends_with_lf (s : str) : bool :=
  match strip_suffix LF s with Some _ => true | None => false end.

Definition is_digit (c : char) : bool := (48 <=? c)%N && (c <=? 57)%N.

(** The longest prefix of decimal digits, and the rest. *)
Fixpoint span_digits (s : str) : str * str :=
  match s with
  | [] => ([], [])
  | c :: s' =>
      if is_digit c then let '(d, r) := span_digits s' in (c :: d, r) else ([], s)
  end.

Definition digits_value (d : str) : nat :=
  fold_left (fun acc c => acc * 10 + (N.to_nat c - 48)) d 0.

(** Parse one record ["{n}. {line}"] as written by [run] (without its
    newline). *)
Definition parse_record (s : str) : option (nat * str) :=
  match span_digits s with
  | ([], _) => None
  | (d, dot :: space :: line) =>
      if N.eqb dot 46 && N.eqb space 32 then Some (digits_value d, line) else None
  | _ => None
  end.

(** * Properties *)

(** ** [contains] is substring containment *)

Lemma starts_with_spec (s p : str) :
  starts_with s p = true <-> exists b, s = p ++ b.
Proof.
  revert s; induction p as [|x p IH]; intros s; simpl.
  - split; [intros _; now exists s | reflexivity].
  - destruct s as [|y s].
    + split; [discriminate | intros [b Hb]; discriminate].
    + rewrite andb_true_iff, N.eqb_eq, IH. split.
      * intros [-> [b ->]]. now exists b.
      * intros [b Hb]. injection Hb as -> ->. split; [reflexivity | now exists b].
Qed.

Lemma contains_spec (h p : str) :
  contains h p = true <-> exists a b, h = a ++ p ++ b.
Proof.
  induction h as [|y h IH]; simpl.
  - rewrite orb_false_r, starts_with_spec. split.
    + intros [b Hb]. now exists [], b.
    + intros [a [b Hab]]. destruct a; [now exists b | discriminate].
  - rewrite orb_true_iff, starts_with_spec, IH. split.
    + intros [[b Hb] | [a [b Hab]]].
      * now exists [], b.
      * exists (y :: a), b. now rewrite Hab.
    + intros [a [b Hab]]. destruct a as [|z a].
      * left. now exists b.
      * right. injection Hab as -> Hh. now exists a, b.
Qed.

Lemma contains_app_mid (a p b : str) : contains (a ++ p ++ b) p = true.
Proof. apply contains_spec. now exists a, b. Qed.

(** ** Line numbering *)

Lemma in_number_from (k n : nat) (l : str) (ls : list str) :
  In (n, l) (number_from k ls) <-> k <= n /\ nth_error ls (n - k) = Some l.
Proof.
  revert k; induction ls as [|l0 ls IH]; intros k; simpl.
  - split; [tauto|]. intros [_ H]. now destruct (n - k).
  - rewrite IH. split.
    + intros [H | [Hle Hn]].
      * injection H as -> ->. now rewrite Nat.sub_diag.
      * split; [lia|]. now replace (n - k) with (S (n - S k)) by lia.
    + intros [Hle Hn]. destruct (Nat.eq_dec n k) as [->|Hne].
      * left. rewrite Nat.sub_diag in Hn. now injection Hn as ->.
      * right. split; [lia|]. now replace (n - k) with (S (n - S k)) in Hn by lia.
Qed.

Lemma length_number_from (k : nat) (ls : list str) :
  length (number_from k ls) = length ls.
Proof. revert k; induction ls; intros k; simpl; auto. Qed.

Lemma map_fst_number_from (k : nat) (ls : list str) :
  map fst (number_from k ls) = seq k (length ls).
Proof. revert k; induction ls; intros k; simpl; f_equal; auto. Qed.

Lemma map_snd_number_from (k : nat) (ls : list str) :
  map snd (number_from k ls) = ls.
Proof. revert k; induction ls; intros k; simpl; f_equal; auto. Qed.

Lemma number_from_sorted (k : nat) (ls : list str) :
  StronglySorted (fun x y => fst x < fst y) (number_from k ls).
Proof.
  revert k; induction ls as [|l ls IH]; intros k; simpl; constructor; auto.
  apply Forall_forall. intros [n l'] Hin. apply in_number_from in Hin. simpl. lia.
Qed.

Lemma filter_sorted {A} (R : A -> A -> Prop) (f : A -> bool) (xs : list A) :
  StronglySorted R xs -> StronglySorted R (filter f xs).
Proof.
  induction xs as [|x xs IH]; intros H; simpl; [constructor|].
  inversion H as [|? ? Hs Hf]; subst.
  destruct (f x); auto. constructor; auto.
  apply Forall_forall. intros y Hy. apply filter_In in Hy.
  rewrite Forall_forall in Hf. now apply Hf.
Qed.

Lemma sorted_lt_nodup (r : list (nat * str)) :
  StronglySorted (fun x y => fst x < fst y) r -> NoDup (map fst r).
Proof.
  induction r as [|x r IH]; intros H; simpl; constructor.
  - inversion H as [|? ? _ Hf]; subst. rewrite in_map_iff.
    intros [y [Hy Hin]]. rewrite Forall_forall in Hf. specialize (Hf y Hin). lia.
  - inversion H; auto.
Qed.

Lemma filter_length {A} (f : A -> bool) (xs : list A) :
  length (filter f xs) <= length xs.
Proof. induction xs; simpl; [lia|]. destruct (f a); simpl; lia. Qed.

(** ** Shape of the lines *)

Lemma strip_suffix_app (c : char) (s : str) : strip_suffix c (s ++ [c]) = Some s.
Proof.
  unfold strip_suffix. rewrite rev_app_distr. simpl.
  now rewrite N.eqb_refl, rev_involutive.
Qed.

Lemma strip_suffix_some (c : char) (s t : str) :
  strip_suffix c s = Some t -> s = t ++ [c].
Proof.
  unfold strip_suffix. destruct (rev s) as [|x r] eqn:E; [discriminate|].
  destruct (N.eqb_spec x c) as [->|]; [|discriminate].
  intros H; injection H as <-. now rewrite <- (rev_involutive s), E.
Qed.

Lemma strip_suffix_notin (c : char) (s : str) :
  ~ In c s -> strip_suffix c s = None.
Proof.
  intros Hn. unfold strip_suffix. destruct (rev s) as [|x r] eqn:E; [reflexivity|].
  destruct (N.eqb_spec x c) as [->|]; [|reflexivity].
  exfalso. apply Hn, in_rev. rewrite E. now left.
Qed.

Lemma split_inclusive_lf_pieces (s : str) (piece : str) :
  In piece (split_inclusive_lf s) ->
  ~ In LF piece \/ exists u, piece = u ++ [LF] /\ ~ In LF u.
Proof.
  revert piece; induction s as [|c s IH]; intros piece Hin; simpl in Hin; [easy|].
  destruct (N.eqb_spec c LF) as [->|Hc].
  - destruct Hin as [<- | Hin]; auto. right. exists []. split; [reflexivity | easy].
  - destruct (split_inclusive_lf s) as [|l ls] eqn:E.
    + destruct Hin as [<- | []]. left. intros [H|[]]. now apply Hc.
    + destruct Hin as [<- | Hin]; [|apply IH; now right].
      destruct (IH l (or_introl eq_refl)) as [Hl | [u [-> Hu]]].
      * left. intros [H|H]; [now apply Hc | now apply Hl].
      * right. exists (c :: u). split; [reflexivity|].
        intros [H|H]; [now apply Hc | now apply Hu].
Qed.

Lemma lines_no_lf (contents line : str) :
  In line (lines contents) -> ~ In LF line.
Proof.
  unfold lines. rewrite in_map_iff. intros [piece [<- Hp]].
  destruct (split_inclusive_lf_pieces _ _ Hp) as [Hn | [u [-> Hu]]].
  - unfold strip_line_ending. now rewrite strip_suffix_notin.
  - unfold strip_line_ending. rewrite strip_suffix_app.
    destruct (strip_suffix CR u) as [u'|] eqn:E; [|exact Hu].
    apply strip_suffix_some in E. subst u. intros H. apply Hu, in_or_app. now left.
Qed.

(** ** Lowercasing *)

Section Lowercase.

Variable to_lower : char -> list char.
Variables Cased Case_Ignorable : char -> bool.

Local Abbreviation lower_from := (to_lowercase_from to_lower Cased Case_Ignorable).
Local Abbreviation lower := (to_lowercase to_lower Cased Case_Ignorable).

Lemma lower_from_app (u : str) :
  forall before v, exists X, lower_from before (u ++ v) = X ++ lower_from (rev u ++ before) v.
Proof.
  induction u as [|c u IH]; intros before v; simpl.
  - now exists [].
  - destruct (IH (c :: before) v) as [X HX]. rewrite HX.
    rewrite <- (app_assoc (rev u) [c] before). simpl.
    rewrite app_assoc. eexists. reflexivity.
Qed.

Lemma lower_from_no_sigma (p : str) :
  ~ In CAPITAL_SIGMA p ->
  forall before v, lower_from before (p ++ v) = flat_map to_lower p ++ lower_from (rev p ++ before) v.
Proof.
  induction p as [|c p IH]; intros Hp before v; simpl; [reflexivity|].
  destruct (N.eqb_spec c CAPITAL_SIGMA) as [->|_]; [exfalso; apply Hp; now left|].
  rewrite IH by (intros H; apply Hp; now right).
  rewrite <- !app_assoc. simpl. reflexivity.
Qed.

Lemma lower_no_sigma (p : str) :
  ~ In CAPITAL_SIGMA p -> lower p = flat_map to_lower p.
Proof.
  intros Hp. unfold to_lowercase. rewrite <- (app_nil_r p) at 1.
  rewrite lower_from_no_sigma by exact Hp. apply app_nil_r.
Qed.

(** A case-sensitive occurrence of a pattern without U+03A3 survives
    lowercasing. *)
Lemma contains_lower_no_sigma (line p : str) :
  ~ In CAPITAL_SIGMA p -> contains line p = true -> contains (lower line) (lower p) = true.
Proof.
  intros Hp Hc. apply contains_spec in Hc as [a [b ->]].
  apply contains_spec. rewrite (lower_no_sigma p Hp). unfold to_lowercase.
  destruct (lower_from_app a [] (p ++ b)) as [X HX]. rewrite HX.
  rewrite lower_from_no_sigma by exact Hp.
  now exists X, (lower_from (rev p ++ rev a ++ []) b).
Qed.

Hypothesis to_lower_LF : to_lower LF = [LF].
Hypothesis to_lower_only_LF : forall c, In LF (to_lower c) -> c = LF.

Lemma lower_keeps_lf (p : str) : In LF p -> In LF (lower p).
Proof.
  intros Hin. apply in_split in Hin as [a [b ->]]. unfold to_lowercase.
  destruct (lower_from_app a [] (LF :: b)) as [X HX]. rewrite HX.
  apply in_or_app. right. simpl. rewrite to_lower_LF. now left.
Qed.

Lemma lower_from_no_lf (s : str) :
  forall before, ~ In LF s -> ~ In LF (lower_from before s).
Proof.
  induction s as [|c s IH]; intros before Hs; simpl; [easy|].
  intros H. apply in_app_or in H as [H|H].
  - destruct (N.eqb_spec c CAPITAL_SIGMA).
    + destruct (_ && _); destruct H as [H|[]]; discriminate.
    + apply to_lower_only_LF in H. subst. apply Hs. now left.
  - revert H. apply IH. intros H. apply Hs. now right.
Qed.

End Lowercase.

(** ** Filtering the numbered lines *)

Lemma filter_all_true {A} (f : A -> bool) (xs : list A) :
  (forall x, In x xs -> f x = true) -> filter f xs = xs.
Proof.
  induction xs as [|x xs IH]; intros H; simpl; [reflexivity|].
  rewrite H by (now left). f_equal. apply IH. intros y Hy. apply H. now right.
Qed.

Lemma filter_all_false {A} (f : A -> bool) (xs : list A) :
  (forall x, In x xs -> f x = false) -> filter f xs = [].
Proof.
  induction xs as [|x xs IH]; intros H; simpl; [reflexivity|].
  rewrite H by (now left). apply IH. intros y Hy. apply H. now right.
Qed.

Lemma contains_nil (h : str) : contains h [] = true.
Proof. destruct h; reflexivity. Qed.

Lemma in_numbered_lines (ls : list str) (n : nat) (line : str) :
  In (n, line) (number_from 1 ls) -> In line ls.
Proof.
  intros H. apply in_number_from in H as [_ H]. now apply nth_error_In in H.
Qed.

Lemma filtered_numbering (f : nat * str -> bool) (ls : list str) :
  Forall (fun '(n, line) => 1 <= n <= length ls /\ nth_error ls (n - 1) = Some line)
    (filter f (number_from 1 ls)) /\
  StronglySorted (fun x y => fst x < fst y) (filter f (number_from 1 ls)) /\
  NoDup (map fst (filter f (number_from 1 ls))) /\
  length (filter f (number_from 1 ls)) <= length ls.
Proof.
  assert (Hs : StronglySorted (fun x y => fst x < fst y) (filter f (number_from 1 ls)))
    by (apply filter_sorted, number_from_sorted).
  split; [|split; [exact Hs | split]].
  - apply Forall_forall. intros [n line] Hin.
    apply filter_In in Hin as [Hin _]. apply in_number_from in Hin as [Hle Hn].
    assert (n - 1 < length ls) by (apply nth_error_Some; congruence).
    split; [lia | exact Hn].
  - now apply sorted_lt_nodup.
  - rewrite <- (length_number_from 1 ls). apply filter_length.
Qed.

(** ** Lines around a carriage return *)

Lemma concat_split_inclusive_lf (s : str) : concat (split_inclusive_lf s) = s.
Proof.
  induction s as [|c s IH]; simpl; [reflexivity|].
  destruct (N.eqb c LF); simpl; [now rewrite IH|].
  destruct (split_inclusive_lf s) as [|l ls]; simpl in *; now rewrite <- IH.
Qed.

Lemma split_inclusive_lf_nil (s : str) : split_inclusive_lf s = [] -> s = [].
Proof.
  intros H. rewrite <- (concat_split_inclusive_lf s), H. reflexivity.
Qed.

Lemma split_inclusive_lf_after_lf (p0 rest : str) :
  split_inclusive_lf (p0 ++ LF :: rest) =
  split_inclusive_lf (p0 ++ [LF]) ++ split_inclusive_lf rest.
Proof.
  induction p0 as [|c p0 IH]; simpl; [reflexivity|].
  destruct (N.eqb c LF); [now rewrite IH|].
  rewrite IH. destruct (split_inclusive_lf (p0 ++ [LF])) as [|l ls] eqn:E.
  - apply split_inclusive_lf_nil in E. now destruct p0.
  - reflexivity.
Qed.

Lemma lines_after_line_start (pre rest : str) :
  (pre = [] \/ exists p0, pre = p0 ++ [LF]) ->
  lines (pre ++ rest) = lines pre ++ lines rest.
Proof.
  intros [-> | [p0 ->]]; [reflexivity|]. unfold lines.
  rewrite <- app_assoc. simpl. rewrite split_inclusive_lf_after_lf. apply map_app.
Qed.

Lemma split_inclusive_lf_first (u : str) (c : char) (b : str) :
  ~ In LF u -> c <> LF ->
  exists w0 ls b', split_inclusive_lf (u ++ c :: b) = (u ++ c :: w0) :: ls /\ b = w0 ++ b'.
Proof.
  intros Hu Hc. induction u as [|a u IH]; simpl.
  - destruct (N.eqb_spec c LF) as [|_]; [contradiction|].
    destruct (split_inclusive_lf b) as [|l ls] eqn:E.
    + apply split_inclusive_lf_nil in E. subst. now exists [], [], [].
    + exists l, ls, (concat ls). split; [reflexivity|].
      rewrite <- (concat_split_inclusive_lf b), E. reflexivity.
  - destruct (N.eqb_spec a LF) as [->|_]; [exfalso; apply Hu; now left|].
    destruct IH as [w0 [ls [b' [E Hb]]]]; [intros H; apply Hu; now right|].
    rewrite E. now exists w0, ls, b'.
Qed.

Lemma split_inclusive_lf_single (s : str) :
  ~ In LF s -> s <> [] -> split_inclusive_lf s = [s].
Proof.
  induction s as [|c s IH]; intros Hs Hne; [contradiction|]. simpl.
  destruct (N.eqb_spec c LF) as [->|_]; [exfalso; apply Hs; now left|].
  destruct s as [|c' s]; [reflexivity|].
  rewrite IH; [reflexivity | intros H; apply Hs; now right | discriminate].
Qed.

Lemma lines_single (s : str) : ~ In LF s -> s <> [] -> lines s = [s].
Proof.
  intros Hs Hne. unfold lines. rewrite split_inclusive_lf_single by assumption.
  simpl. unfold strip_line_ending. now rewrite strip_suffix_notin.
Qed.

Lemma strip_line_ending_keeps_cr (u w0 b' : str) :
  hd_error (w0 ++ b') <> Some LF ->
  (~ In LF (u ++ CR :: w0) \/ exists v, u ++ CR :: w0 = v ++ [LF] /\ ~ In LF v) ->
  exists w, strip_line_ending (u ++ CR :: w0) = u ++ CR :: w.
Proof.
  intros Hb [Hn | [v [Hv _]]].
  - exists w0. unfold strip_line_ending. now rewrite strip_suffix_notin.
  - destruct (exists_last (l := w0)) as [w1 [x Hw]].
    + intros ->. apply app_inj_tail in Hv as [_ H]. discriminate.
    + subst w0. rewrite app_comm_cons, app_assoc in Hv.
      apply app_inj_tail in Hv as [<- ->].
      destruct w1 as [|y w1]; [now exfalso; apply Hb|].
      unfold strip_line_ending.
      replace (u ++ CR :: (y :: w1) ++ [LF]) with ((u ++ CR :: y :: w1) ++ [LF])
        by (rewrite <- app_assoc; reflexivity).
      rewrite strip_suffix_app.
      destruct (strip_suffix CR _) as [t|] eqn:E; [|now exists (y :: w1)].
      apply strip_suffix_some in E.
      destruct (exists_last (l := y :: w1)) as [w2 [z Hz]]; [discriminate|].
      rewrite Hz, app_comm_cons, app_assoc in E.
      apply app_inj_tail in E as [<- _]. now exists w2.
Qed.

(** * The claims *)

Section Claims.

Variable to_lower : char -> list char.
Variables Cased Case_Ignorable : char -> bool.

Local Abbreviation lower := (to_lowercase to_lower Cased Case_Ignorable).
Local Abbreviation search_ci := (search_case_insensitive to_lower Cased Case_Ignorable).

(** C1: a numbered line [(n, line)] is in the result of [search] exactly when
    [line] is the [n]-th line of [contents] and contains [pattern] as a
    contiguous substring; for [search_case_insensitive], exactly when the
    [to_lowercase] of that line contains the [to_lowercase] of [pattern]. *)
Theorem search_line_included_iff (pattern contents : str) (n : nat) (line : str) :
  (In (n, line) (search pattern contents) <->
     1 <= n /\ nth_error (lines contents) (n - 1) = Some line /\
     exists a b, line = a ++ pattern ++ b) /\
  (In (n, line) (search_ci pattern contents) <->
     1 <= n /\ nth_error (lines contents) (n - 1) = Some line /\
     exists a b, lower line = a ++ lower pattern ++ b).
Proof.
  unfold search, search_case_insensitive. rewrite !filter_In, !in_number_from.
  cbn beta iota. rewrite !contains_spec. tauto.
Qed.

(** C2 (as amended): for a pattern without U+03A3 GREEK CAPITAL LETTER SIGMA,
    every entry of [search] is also an entry of [search_case_insensitive]. *)
Theorem search_ci_superset_without_sigma (pattern contents : str) :
  ~ In CAPITAL_SIGMA pattern ->
  forall x, In x (search pattern contents) -> In x (search_ci pattern contents).
Proof.
  intros Hp [n line]. unfold search, search_case_insensitive. rewrite !filter_In.
  intros [Hin Hc]. split; [exact Hin|]. now apply contains_lower_no_sigma.
Qed.

(** C3: the result of either matcher is a strictly increasing, duplicate-free
    selection of numbered lines: every number [n] lies in [1, number of lines],
    the text is the [n]-th line, and there are at most as many entries as
    lines. *)
Theorem search_results_line_subsequence (pattern contents : str) :
  (Forall (fun '(n, line) =>
             1 <= n <= length (lines contents) /\
             nth_error (lines contents) (n - 1) = Some line)
          (search pattern contents) /\
   StronglySorted (fun x y => fst x < fst y) (search pattern contents) /\
   NoDup (map fst (search pattern contents)) /\
   length (search pattern contents) <= length (lines contents)) /\
  (Forall (fun '(n, line) =>
             1 <= n <= length (lines contents) /\
             nth_error (lines contents) (n - 1) = Some line)
          (search_ci pattern contents) /\
   StronglySorted (fun x y => fst x < fst y) (search_ci pattern contents) /\
   NoDup (map fst (search_ci pattern contents)) /\
   length (search_ci pattern contents) <= length (lines contents)).
Proof. split; apply filtered_numbering. Qed.

(** C4: with the empty pattern both matchers return every line of
    [contents], in order, numbered 1, 2, ... *)
Theorem empty_pattern_returns_all_lines (contents : str) :
  map fst (search [] contents) = seq 1 (length (lines contents)) /\
  map snd (search [] contents) = lines contents /\
  map fst (search_ci [] contents) = seq 1 (length (lines contents)) /\
  map snd (search_ci [] contents) = lines contents.
Proof.
  unfold search, search_case_insensitive.
  rewrite !filter_all_true by (intros [n line] _; apply contains_nil).
  rewrite map_fst_number_from, map_snd_number_from. tauto.
Qed.

(** C7: a pattern containing ['\n'] matches no line: [search] returns the
    empty result, and so does [search_case_insensitive] under the Unicode
    facts that ['\n'] lowercases to itself and is the lowercase of no other
    character. *)
Theorem newline_pattern_matches_nothing (pattern contents : str) :
  In LF pattern ->
  search pattern contents = [] /\
  (to_lower LF = [LF] -> (forall c, In LF (to_lower c) -> c = LF) ->
   search_ci pattern contents = []).
Proof.
  intros Hp. split; [|intros Hlf Honly];
    apply filter_all_false; intros [n line] Hin;
    apply in_numbered_lines, lines_no_lf in Hin; cbn beta iota;
    apply not_true_is_false; rewrite contains_spec; intros [a [b Hab]].
  - apply Hin. rewrite Hab. apply in_or_app. right. apply in_or_app. now left.
  - apply (lower_from_no_lf to_lower Cased Case_Ignorable Honly line [] Hin).
    fold (to_lowercase to_lower Cased Case_Ignorable line). rewrite Hab.
    apply in_or_app. right. apply in_or_app. left.
    now apply lower_keeps_lf.
Qed.

(** C10: a carriage return that is not followed by a line feed does not end
    a line.  (a) At the start of any line, text [u] then a lone ['\r'] stays
    in that line's text.  (b) Text whose only separators are lone carriage
    returns is one single line, and each matcher returns it as line 1 for
    every pattern it matches, carriage returns included. *)
Theorem lone_cr_is_not_a_terminator (pre u b : str) :
  (pre = [] \/ exists p0, pre = p0 ++ [LF]) -> ~ In LF u -> hd_error b <> Some LF ->
  (exists w, nth_error (lines (pre ++ u ++ CR :: b)) (length (lines pre))
             = Some (u ++ CR :: w)) /\
  (~ In LF b ->
   lines (u ++ CR :: b) = [u ++ CR :: b] /\
   (forall pattern, contains (u ++ CR :: b) pattern = true ->
      search pattern (u ++ CR :: b) = [(1, u ++ CR :: b)]) /\
   (forall pattern, contains (lower (u ++ CR :: b)) (lower pattern) = true ->
      search_ci pattern (u ++ CR :: b) = [(1, u ++ CR :: b)])).
Proof.
  intros Hpre Hu Hhd. assert (Hcr : CR <> LF) by discriminate. split.
  - rewrite lines_after_line_start by exact Hpre.
    rewrite nth_error_app2, Nat.sub_diag by lia. unfold lines.
    destruct (split_inclusive_lf_first u CR b Hu Hcr) as [w0 [ls [b' [E Hb]]]].
    destruct (strip_line_ending_keeps_cr u w0 b') as [w Hw].
    + now rewrite <- Hb.
    + apply (split_inclusive_lf_pieces (u ++ CR :: b)). rewrite E. now left.
    + exists w. rewrite E. simpl. now rewrite Hw.
  - intros Hb.
    assert (Hs : ~ In LF (u ++ CR :: b)).
    { intros H. apply in_app_or in H as [H | [H | H]]; auto. }
    assert (Hl : lines (u ++ CR :: b) = [u ++ CR :: b])
      by (apply lines_single; [exact Hs | now destruct u]).
    split; [exact Hl|].
    split; intros pattern Hc; unfold search, search_case_insensitive;
      rewrite Hl; simpl; now rewrite Hc.
Qed.


(** ** Configuration and the runner *)

Local Abbreviation run_t := (run to_lower Cased Case_Ignorable).
Local Abbreviation main_t := (main to_lower Cased Case_Ignorable).

(** The result [run] prints: [search] or [search_case_insensitive], as
    [case_sensitive] selects. *)
Local Abbreviation results_of config contents :=
  (if case_sensitive config then search (pattern config) contents
   else search_ci (pattern config) contents).

(** C5, what the code does: given a program name, a pattern and a file
    name, [Config::new] succeeds, and [case_sensitive] is [false] exactly
    when [CASE_INSENSITIVE] is set to a value that is valid Unicode; it is
    [true] when the variable is absent, and also when it is present with a
    value that is not valid Unicode, since [env::var] reports that as an
    error too.  A presence test ([env::var_os]) would not. *)
Theorem config_case_sensitivity (env : Env) (prog pat file : str) (rest : list str) :
  exists config,
    config_new env (prog :: pat :: file :: rest) = Ok config /\
    pattern config = pat /\ filename config = file /\
    (case_sensitive config = false <->
       exists v s, env (bytes_lit "CASE_INSENSITIVE") = Some v /\ utf8_decode v = Some s) /\
    (case_sensitive config = true <->
       env (bytes_lit "CASE_INSENSITIVE") = None \/
       exists v, env (bytes_lit "CASE_INSENSITIVE") = Some v /\ utf8_decode v = None).
Proof.
  unfold config_new, env_var. simpl.
  destruct (env (bytes_lit "CASE_INSENSITIVE")) as [v|] eqn:Ev.
  - destruct (utf8_decode v) as [s|] eqn:Ed; simpl;
      (eexists; split; [reflexivity|]); simpl; (split; [reflexivity|split; [reflexivity|]]).
    + split; split.
      * intros _. now exists v, s.
      * reflexivity.
      * discriminate.
      * intros [H | [v' [H1 H2]]]; [discriminate|]. injection H1 as <-. congruence.
    + split; split.
      * discriminate.
      * intros [v' [s' [H1 H2]]]. injection H1 as <-. congruence.
      * intros _. right. now exists v.
      * reflexivity.
  - eexists. split; [reflexivity|]. simpl. split; [reflexivity|split; [reflexivity|]].
    split; split; try discriminate; auto.
    intros [v' [s' [H1 _]]]. discriminate.
Qed.

(** C6 (as amended): [Config::new] fails exactly when fewer than two items
    follow the program name: with no pattern it returns the message
    ["Didn't get pattern to match"], with a pattern but no file name
    ["Didn't get filename"]; otherwise it succeeds.  It does no I/O, and on
    its failure [main] reads no file: it writes the message to standard
    error and exits with status 1, or, when that write fails, panics with
    ["failed printing to stderr: {e}"] and exits with status 101. *)
Theorem config_new_failures (env : Env) (args : list str) :
  (length args <= 1 -> config_new env args = Err "Didn't get pattern to match"%string) /\
  (length args = 2 -> config_new env args = Err "Didn't get filename"%string) /\
  (3 <= length args -> exists config, config_new env args = Ok config) /\
  (forall err w, config_new env args = Err err ->
     main_t env args w =
     (None, extend w
              match write_error w StderrStream (trace w) with
              | None => [Stderr (lit "Problem parsing arguments: " ++ lit err ++ [LF]);
                         Exit 1%Z]
              | Some e => [Panic (lit "failed printing to stderr: " ++ io_error_message e);
                           Exit 101%Z]
              end)).
Proof.
  split; [|split; [|split]].
  - intros H. destruct args as [|a [|b args]]; [reflexivity | reflexivity | simpl in H; lia].
  - intros H. destruct args as [|a [|b [|c args]]]; try (simpl in H; lia). reflexivity.
  - intros H. destruct args as [|a [|b [|c args]]]; try (simpl in H; lia).
    eexists. reflexivity.
  - intros err w H. unfold main. rewrite H. unfold bind, eprintln, print_to.
    destruct (write_error w StderrStream (trace w)) as [e|]; [reflexivity|].
    unfold exit, extend. cbn [files write_error trace]. now rewrite <- app_assoc.
Qed.

Lemma for_each_print_records (xs : list (nat * str)) (w : World) :
  (forall t, write_error w StdoutStream t = None) ->
  for_each (fun '(line_no, line) => println (record line_no line)) xs w =
  (Some tt, extend w (map (fun '(n, line) => Stdout (decimal n ++ [46; 32]%N ++ line ++ [LF])) xs)).
Proof.
  revert w; induction xs as [|[n line] xs IH]; intros w Hw; simpl.
  - destruct w. unfold ret, extend. simpl. now rewrite app_nil_r.
  - unfold bind, println, print_to. rewrite Hw. rewrite IH by exact Hw.
    unfold extend. cbn [files write_error trace].
    unfold record. now rewrite <- !app_assoc.
Qed.

Lemma for_each_cons {A} (f : A -> IO unit) (x : A) (xs : list A) (w : World) :
  for_each f (x :: xs) w =
  match f x w with
  | (Some _, w') => for_each f xs w'
  | (None, w') => (None, w')
  end.
Proof. reflexivity. Qed.

Lemma println_eq (text : str) (w : World) :
  println text w =
  match write_error w StdoutStream (trace w) with
  | None => (Some tt, extend w [Stdout (text ++ [LF])])
  | Some e => (None, extend w [Panic (lit "failed printing to stdout: " ++ io_error_message e);
                               Exit 101%Z])
  end.
Proof. reflexivity. Qed.

(** Printing records writes a prefix of them: all of them, or the first [k]
    before the first write that fails, which panics. *)
Lemma print_records_outcome (xs : list (nat * str)) (w : World) :
  exists k, k <= length xs /\
  ((k = length xs /\
    for_each (fun '(line_no, line) => println (record line_no line)) xs w =
    (Some tt, extend w (map (fun '(n, line) => Stdout (decimal n ++ [46; 32]%N ++ line ++ [LF])) xs))) \/
   (k < length xs /\ exists e,
      write_error w StdoutStream
        (trace w ++ map (fun '(n, line) => Stdout (decimal n ++ [46; 32]%N ++ line ++ [LF]))
                        (firstn k xs)) = Some e /\
      for_each (fun '(line_no, line) => println (record line_no line)) xs w =
      (None, extend w (map (fun '(n, line) => Stdout (decimal n ++ [46; 32]%N ++ line ++ [LF]))
                           (firstn k xs) ++
                       [Panic (lit "failed printing to stdout: " ++ io_error_message e);
                        Exit 101%Z])))).
Proof.
  revert w; induction xs as [|[n line] xs IH]; intros w.
  - exists 0. split; [lia|]. left. split; [reflexivity|].
    destruct w. unfold ret, extend. cbn. now rewrite app_nil_r.
  - rewrite for_each_cons. cbn beta iota. rewrite println_eq.
    destruct (write_error w StdoutStream (trace w)) as [e|] eqn:He.
    + exists 0. split; [cbn [length]; lia|]. right. split; [cbn [length]; lia|].
      exists e. cbn [firstn map]. rewrite app_nil_r. split; [exact He|]. reflexivity.
    + destruct (IH (extend w [Stdout (record n line ++ [LF])]))
        as [k [Hk [[Hk' H] | [Hk' [e [He' H]]]]]].
      * exists (S k). split; [cbn [length]; lia|]. left. split; [cbn [length]; lia|].
        rewrite H. unfold extend. cbn [files write_error trace map]. unfold record.
        now rewrite <- !app_assoc.
      * exists (S k). split; [cbn [length]; lia|]. right. split; [cbn [length]; lia|].
        exists e. split.
        -- rewrite <- He'. unfold extend. cbn [trace write_error firstn map]. unfold record.
           now rewrite <- !app_assoc.
        -- rewrite H. unfold extend. cbn [files write_error trace firstn map]. unfold record.
           now rewrite <- !app_assoc.
Qed.

(** C8: [run] returns [Ok] only after reading the file and writing one record
    per entry of the selected matcher's result, in the result's order: the
    decimal line number, ['.'], [' '], the line's text and ['\n'], and nothing
    else.  Conversely, once the file is read it returns [Ok] with exactly
    these records when the result is empty (nothing is written) or standard
    output takes every write. *)
Theorem run_success_prints_records (config : Config) (w : World) :
  (forall r w', run_t config w = (Some r, w') -> r = Ok tt ->
   exists bytes contents,
     files w (filename config) = Ok bytes /\ utf8_decode bytes = Some contents /\
     w' = extend w (ReadFile (filename config) ::
            map (fun '(n, line) => Stdout (decimal n ++ [46; 32]%N ++ line ++ [LF]))
                (results_of config contents))) /\
  (forall bytes contents,
     files w (filename config) = Ok bytes -> utf8_decode bytes = Some contents ->
     results_of config contents = [] \/ (forall t, write_error w StdoutStream t = None) ->
     run_t config w =
     (Some (Ok tt),
      extend w (ReadFile (filename config) ::
        map (fun '(n, line) => Stdout (decimal n ++ [46; 32]%N ++ line ++ [LF]))
            (results_of config contents)))).
Proof.
  split.
  - intros r w' Hrun Hr. subst r.
    unfold run, read_to_string, bind, emit in Hrun. cbn [files write_error trace extend] in Hrun.
    destruct (files w (filename config)) as [bytes|e] eqn:Ef; [|discriminate].
    destruct (utf8_decode bytes) as [contents|] eqn:Ed; [|discriminate].
    exists bytes, contents. split; [reflexivity | split; [exact Ed|]].
    destruct (print_records_outcome (results_of config contents)
                (extend w [ReadFile (filename config)]))
      as [k [Hk [[_ Hall] | [_ [e [_ Hfail]]]]]].
    + rewrite Hall in Hrun. unfold ret in Hrun. injection Hrun as <-.
      unfold extend. cbn [files write_error trace]. now rewrite <- app_assoc.
    + rewrite Hfail in Hrun. discriminate.
  - intros bytes contents Hf Hd Hout.
    unfold run, read_to_string, bind, emit. cbn [files write_error trace extend].
    rewrite Hf, Hd.
    destruct Hout as [Hnil | Hw].
    + rewrite Hnil. cbn [map for_each]. unfold ret, extend. cbn [files write_error trace].
      reflexivity.
    + rewrite for_each_print_records by exact Hw. unfold ret, extend.
      cbn [files write_error trace]. now rewrite <- app_assoc.
Qed.

(** C9: when the file cannot be read (the file system reports an error, or
    its bytes are not UTF-8), [run] returns an I/O error after the read and
    writes nothing. *)
Theorem run_unreadable_file_fails (config : Config) (w : World) :
  (exists e, files w (filename config) = Err e) \/
  (exists bytes, files w (filename config) = Ok bytes /\ utf8_decode bytes = None) ->
  exists e, run_t config w =
            (Some (Err (IoError e)), extend w [ReadFile (filename config)]).
Proof.
  intros [[e He] | [bytes [Hb Hd]]];
    unfold run, read_to_string, bind, emit, ret; cbn [files write_error trace extend].
  - rewrite He. now exists e.
  - rewrite Hb, Hd. now exists InvalidUtf8.
Qed.

End Claims.

(** * Tests, witnesses and counterexamples *)

Example search_duct :
  search (lit "duct") contents_duct = [(2, lit "Safe, fast, productive.")].
Proof. vm_compute. reflexivity. Qed.

Example search_ci_rust :
  search_ci_sample (lit "rUsT") contents_trust = [(1, lit "Rust:"); (4, lit "Trust me.")].
Proof. vm_compute. reflexivity. Qed.

Example lines_trailing_newline :
  lines (lit "a" ++ [CR; LF] ++ lit "b" ++ [LF; LF]) = [lit "a"; lit "b"; []].
Proof. vm_compute. reflexivity. Qed.

Example decimal_120 : decimal 120 = lit "120".
Proof. reflexivity. Qed.

Example run_sample_output :
  trace (snd (run_sample config_sample world_sample)) =
  [ReadFile (lit "sample.txt");
   Stdout (lit "1. Rust:" ++ [LF]);
   Stdout (lit "2. Trust me." ++ [LF])].
Proof. vm_compute. reflexivity. Qed.

(** A pipe whose reader goes away after the first line: the second record
    fails, and the process panics and exits with status 101. *)
Example main_closed_pipe :
  trace (snd (main_sample env_empty args_ust world_stdout_closed)) =
  [ReadFile (lit "sample.txt");
   Stdout (lit "1. Rust:" ++ [LF]);
   Panic (lit "failed printing to stdout: Broken pipe (os error 32)");
   Exit 101%Z].
Proof. vm_compute. reflexivity. Qed.

(** Standard error sent to [/dev/full]: the report of the missing file fails. *)
Example main_stderr_full :
  main_sample env_empty args_missing world_stderr_full =
  (None, extend world_stderr_full
           [ReadFile (lit "filename");
            Panic (lit "failed printing to stderr: No space left on device (os error 28)");
            Exit 101%Z]).
Proof. vm_compute. reflexivity. Qed.

(** The report of a missing file. *)
Example main_missing_file :
  trace (snd (main_sample env_empty args_missing world_sample)) =
  [ReadFile (lit "filename");
   Stderr (lit "Encountered an error: No such file or directory (os error 2)" ++ [LF]);
   Exit 1%Z].
Proof. vm_compute. reflexivity. Qed.

Lemma search_ci_superset_without_sigma_witness :
  ~ In CAPITAL_SIGMA (lit "ust") /\
  (forall x, In x (search (lit "ust") contents_trust) ->
             In x (search_ci_sample (lit "ust") contents_trust)).
Proof.
  assert (H : ~ In CAPITAL_SIGMA (lit "ust")) by (simpl; intuition discriminate).
  split; [exact H|].
  exact (search_ci_superset_without_sigma sample_to_lower sample_Cased sample_Case_Ignorable
           (lit "ust") contents_trust H).
Defined.

(** C2 fails as stated: [search] finds ["Σ"] in ["AΣ"], but [to_lowercase]
    turns the word-final sigma of ["AΣ"] into ["ς"] and the pattern into
    ["σ"], so [search_case_insensitive] does not return the line. *)
Lemma search_ci_superset_final_sigma_counterexample :
  ~ (forall pattern contents x,
       In x (search pattern contents) -> In x (search_ci_sample pattern contents)).
Proof.
  intros H.
  assert (Hin : In (1, [65; CAPITAL_SIGMA]%N)
                   (search_ci_sample [CAPITAL_SIGMA] [65; CAPITAL_SIGMA]%N)).
  { apply H. vm_compute. now left. }
  vm_compute in Hin. exact Hin.
Qed.

(** C5 fails on the code: [CASE_INSENSITIVE] is present, with a value that
    is not UTF-8, and [case_sensitive] is still [true]. *)
Lemma case_insensitive_presence_counterexample :
  ~ (forall env args config,
       config_new env args = Ok config ->
       (case_sensitive config = false <-> env (bytes_lit "CASE_INSENSITIVE") <> None)).
Proof.
  intros H.
  assert (Hc : config_new env_non_unicode [lit "gremp"; lit "p"; lit "f"] =
               Ok (mkConfig (lit "p") (lit "f") true)) by (vm_compute; reflexivity).
  destruct (H _ _ _ Hc) as [_ Hp]. simpl in Hp.
  assert (Hs : env_non_unicode (bytes_lit "CASE_INSENSITIVE") <> None)
    by (vm_compute; discriminate).
  specialize (Hp Hs). discriminate Hp.
Qed.

Lemma config_new_failures_witness :
  config_new env_empty [lit "gremp"; lit "pattern"] = Err "Didn't get filename"%string.
Proof.
  apply (proj1 (proj2 (config_new_failures sample_to_lower sample_Cased sample_Case_Ignorable
                         env_empty [lit "gremp"; lit "pattern"]))).
  reflexivity.
Defined.

(** C6 fails as stated: the reason for a missing pattern is the message
    ["Didn't get pattern to match"], not ["missing pattern"]. *)
Lemma config_missing_pattern_message_counterexample :
  config_new env_empty [lit "gremp"] <> Err "missing pattern"%string.
Proof. vm_compute. discriminate. Qed.

Lemma newline_pattern_matches_nothing_witness :
  In LF [LF] /\ sample_to_lower LF = [LF] /\
  (forall c, In LF (sample_to_lower c) -> c = LF) /\
  search [LF] contents_duct = [] /\ search_ci_sample [LF] contents_duct = [].
Proof.
  assert (H1 : In LF [LF]) by (now left).
  assert (H2 : sample_to_lower LF = [LF]) by reflexivity.
  assert (H3 : forall c, In LF (sample_to_lower c) -> c = LF).
  { intros c Hc. unfold sample_to_lower in Hc. unfold LF in *.
    destruct ((65 <=? c)%N && (c <=? 90)%N);
      [destruct Hc as [Hc|[]]; lia|].
    destruct ((913 <=? c)%N && (c <=? 937)%N && negb (c =? 930)%N);
      destruct Hc as [Hc|[]]; [lia | now symmetry]. }
  destruct (newline_pattern_matches_nothing sample_to_lower sample_Cased sample_Case_Ignorable
              [LF] contents_duct H1) as [Hs Hci].
  repeat split; auto.
Defined.

Lemma run_success_prints_records_witness :
  files world_sample (filename config_sample) = Ok sample_bytes /\
  utf8_decode sample_bytes = Some sample_text /\
  (forall t, write_error world_sample StdoutStream t = None) /\
  run_sample config_sample world_sample =
  (Some (Ok tt),
   extend world_sample (ReadFile (filename config_sample) ::
     map (fun '(n, line) => Stdout (decimal n ++ [46; 32]%N ++ line ++ [LF]))
         (if case_sensitive config_sample
          then search (pattern config_sample) sample_text
          else search_ci_sample (pattern config_sample) sample_text))).
Proof.
  assert (H1 : files world_sample (filename config_sample) = Ok sample_bytes)
    by (vm_compute; reflexivity).
  assert (H2 : utf8_decode sample_bytes = Some sample_text) by (vm_compute; reflexivity).
  assert (H3 : forall t, write_error world_sample StdoutStream t = None) by reflexivity.
  split; [exact H1 | split; [exact H2 | split; [exact H3|]]].
  exact (proj2 (run_success_prints_records sample_to_lower sample_Cased sample_Case_Ignorable
                  config_sample world_sample) sample_bytes sample_text H1 H2 (or_intror H3)).
Defined.

Lemma run_unreadable_file_fails_witness :
  (exists e, files world_sample (filename config_missing) = Err e) /\
  exists e, run_sample config_missing world_sample =
            (Some (Err (IoError e)), extend world_sample [ReadFile (filename config_missing)]).
Proof.
  assert (H : exists e, files world_sample (filename config_missing) = Err e)
    by (exists not_found; vm_compute; reflexivity).
  split; [exact H|].
  exact (run_unreadable_file_fails sample_to_lower sample_Cased sample_Case_Ignorable
           config_missing world_sample (or_introl H)).
Defined.

Lemma lone_cr_is_not_a_terminator_witness :
  (exists w, nth_error (lines ([] ++ lit "a" ++ CR :: lit "b")) (length (lines []))
             = Some (lit "a" ++ CR :: w)) /\
  lines (lit "a" ++ CR :: lit "b") = [lit "a" ++ CR :: lit "b"] /\
  search [CR] (lit "a" ++ CR :: lit "b") = [(1, lit "a" ++ CR :: lit "b")].
Proof.
  assert (Hpre : ([] : str) = [] \/ exists p0, ([] : str) = p0 ++ [LF]) by (now left).
  assert (Hu : ~ In LF (lit "a")) by (simpl; intuition discriminate).
  assert (Hb : hd_error (lit "b") <> Some LF) by (vm_compute; discriminate).
  assert (Hb' : ~ In LF (lit "b")) by (simpl; intuition discriminate).
  destruct (lone_cr_is_not_a_terminator sample_to_lower sample_Cased sample_Case_Ignorable
              [] (lit "a") (lit "b") Hpre Hu Hb) as [HA HB].
  destruct (HB Hb') as [Hl [Hs _]].
  split; [exact HA | split; [exact Hl | apply Hs; vm_compute; reflexivity]].
Defined.

(** * Further properties of the code *)

(** ** The records written by [run] can be read back *)

Lemma fold_digits_acc (d : str) (a : nat) :
  fold_left (fun acc c => acc * 10 + (N.to_nat c - 48)) d a =
  a * 10 ^ length d + digits_value d.
Proof.
  unfold digits_value. revert a; induction d as [|c d IH]; intros a; cbn [fold_left length].
  - cbn. lia.
  - rewrite (IH (a * 10 + _)), (IH (0 * 10 + _)). rewrite Nat.pow_succ_r'. nia.
Qed.

Lemma digits_value_cons (c : char) (d : str) :
  digits_value (c :: d) = (N.to_nat c - 48) * 10 ^ length d + digits_value d.
Proof. unfold digits_value at 1. simpl. now rewrite fold_digits_acc. Qed.

Lemma decimal_digits_spec (fuel n : nat) (acc : str) :
  n < fuel -> Forall (fun c => is_digit c = true) acc ->
  exists d, d <> [] /\ decimal_digits fuel n acc = d ++ acc /\
    Forall (fun c => is_digit c = true) d /\
    digits_value (d ++ acc) = n * 10 ^ length acc + digits_value acc.
Proof.
  revert n acc; induction fuel as [|fuel IH]; intros n acc Hn Hacc; [lia|].
  cbn [decimal_digits].
  assert (Hdig : is_digit (N.of_nat (48 + n mod 10)) = true).
  { unfold is_digit. apply andb_true_iff.
    pose proof (Nat.mod_upper_bound n 10). split; apply N.leb_le; lia. }
  assert (Hval : N.to_nat (N.of_nat (48 + n mod 10)) - 48 = n mod 10)
    by (rewrite Nat2N.id; lia).
  destruct (n <? 10) eqn:Hlt.
  - apply Nat.ltb_lt in Hlt. exists [N.of_nat (48 + n mod 10)].
    split; [discriminate|]. split; [reflexivity|]. split; [now constructor|].
    cbn [app]. rewrite digits_value_cons, Hval, Nat.mod_small by exact Hlt. reflexivity.
  - apply Nat.ltb_ge in Hlt.
    destruct (IH (n / 10) (N.of_nat (48 + n mod 10) :: acc)) as [d [Hne [He [Hd Hv]]]].
    + assert (n / 10 < n) by (apply Nat.div_lt; lia). lia.
    + now constructor.
    + exists (d ++ [N.of_nat (48 + n mod 10)]). split.
      { destruct d; [contradiction | discriminate]. }
      rewrite He, <- app_assoc. split; [reflexivity|]. split.
      { apply Forall_app. split; [exact Hd | now constructor]. }
      cbn [app]. rewrite Hv. cbn [length].
      rewrite digits_value_cons, Hval, Nat.pow_succ_r'.
      pose proof (Nat.div_mod n 10 ltac:(lia)) as Hn10.
      generalize (10 ^ length acc) as P. intros P.
      rewrite Hn10 at 3. nia.
Qed.

Lemma decimal_spec (n : nat) :
  decimal n <> [] /\ Forall (fun c => is_digit c = true) (decimal n) /\
  digits_value (decimal n) = n.
Proof.
  unfold decimal.
  destruct (decimal_digits_spec (S n) n [] ltac:(lia) ltac:(constructor))
    as [d [Hne [He [Hd Hv]]]].
  rewrite He, app_nil_r in *. cbn [length] in Hv. rewrite Nat.pow_0_r in Hv.
  change (digits_value []) with 0 in Hv. split; [exact Hne | split; [exact Hd | lia]].
Qed.

Lemma span_digits_app (d : str) (c : char) (r : str) :
  Forall (fun c => is_digit c = true) d -> is_digit c = false ->
  span_digits (d ++ c :: r) = (d, c :: r).
Proof.
  intros Hd Hc. induction Hd as [|x d Hx Hd IH]; simpl.
  - now rewrite Hc.
  - now rewrite Hx, IH.
Qed.

(** X7: every record [run] prints, ["{line_no}. {line}"], reads back as the
    pair [(line_no, line)]: the decimal number has at least one digit and is
    followed by ['.'] and [' '], so number and text can be recovered. *)
Theorem parse_record_roundtrip (line_no : nat) (line : str) :
  parse_record (record line_no line) = Some (line_no, line).
Proof.
  destruct (decimal_spec line_no) as [Hne [Hd Hv]].
  unfold parse_record, record.
  replace (lit ". " ++ line) with (46%N :: 32%N :: line) by reflexivity.
  rewrite (span_digits_app _ 46%N (32%N :: line) Hd eq_refl).
  destruct (decimal line_no) as [|c d] eqn:E; [contradiction|].
  cbn [app]. rewrite N.eqb_refl, N.eqb_refl. cbn [andb]. now rewrite Hv.
Qed.

(** ** Line endings and the text of the lines *)

Lemma split_inclusive_lf_line (u rest : str) :
  ~ In LF u -> split_inclusive_lf (u ++ LF :: rest) = (u ++ [LF]) :: split_inclusive_lf rest.
Proof.
  induction u as [|c u IH]; intros Hu; simpl; [reflexivity|].
  destruct (N.eqb_spec c LF) as [->|_]; [exfalso; apply Hu; now left|].
  rewrite IH by (intros H; apply Hu; now right). reflexivity.
Qed.

(** X5: a line ends at ["\r\n"] or at a ['\n']: text [u] without ['\n']
    followed by ["\r\n"] is the line [u], with the ['\r'] dropped; followed
    by a bare ['\n'] it is the line [u] as long as [u] does not itself end in
    ['\r'].  The rest of the contents is split on its own. *)
Theorem lines_line_terminators (u rest : str) :
  ~ In LF u ->
  lines (u ++ CR :: LF :: rest) = u :: lines rest /\
  ((u = [] \/ exists u' x, u = u' ++ [x] /\ x <> CR) ->
   lines (u ++ LF :: rest) = u :: lines rest).
Proof.
  intros Hu. split.
  - replace (u ++ CR :: LF :: rest) with ((u ++ [CR]) ++ LF :: rest)
      by (now rewrite <- app_assoc).
    unfold lines. rewrite split_inclusive_lf_line.
    + simpl. f_equal. unfold strip_line_ending.
      now rewrite strip_suffix_app, strip_suffix_app.
    + intros H. apply in_app_or in H as [H | [H | []]]; [contradiction | discriminate].
  - intros Hend. unfold lines. rewrite split_inclusive_lf_line by exact Hu.
    simpl. f_equal. unfold strip_line_ending. rewrite strip_suffix_app.
    destruct Hend as [-> | [u' [x [-> Hx]]]]; [reflexivity|].
    unfold strip_suffix. rewrite rev_app_distr. simpl.
    destruct (N.eqb_spec x CR); [contradiction | reflexivity].
Qed.

Lemma strip_suffix_cons (c x : char) (l : str) :
  l <> [] -> strip_suffix c (x :: l) = option_map (cons x) (strip_suffix c l).
Proof.
  intros Hl. unfold strip_suffix. simpl.
  destruct (rev l) as [|y r] eqn:E.
  - exfalso. apply Hl. now rewrite <- (rev_involutive l), E.
  - simpl. destruct (N.eqb y c); [|reflexivity].
    simpl. now rewrite rev_app_distr.
Qed.

Lemma strip_line_ending_no_cr (l : str) :
  ~ In CR l ->
  strip_line_ending l = match strip_suffix LF l with None => l | Some l' => l' end.
Proof.
  intros Hl. unfold strip_line_ending.
  destruct (strip_suffix LF l) as [l'|] eqn:E; [|reflexivity].
  apply strip_suffix_some in E. subst l. rewrite strip_suffix_notin; [reflexivity|].
  intros H. apply Hl, in_or_app. now left.
Qed.

Lemma strip_line_ending_cons (x : char) (l : str) :
  ~ In CR (x :: l) -> l <> [] -> strip_line_ending (x :: l) = x :: strip_line_ending l.
Proof.
  intros Hx Hl. rewrite !strip_line_ending_no_cr by (simpl in *; tauto).
  rewrite strip_suffix_cons by exact Hl.
  destruct (strip_suffix LF l); reflexivity.
Qed.

Lemma split_inclusive_lf_nonempty (s piece : str) :
  In piece (split_inclusive_lf s) -> piece <> [].
Proof.
  revert piece; induction s as [|c s IH]; intros piece Hin; simpl in Hin; [easy|].
  destruct (N.eqb c LF).
  - destruct Hin as [<-|Hin]; [discriminate | now apply IH].
  - destruct (split_inclusive_lf s) as [|l ls].
    + destruct Hin as [<-|[]]. discriminate.
    + destruct Hin as [<-|Hin]; [discriminate | apply IH; now right].
Qed.

Lemma in_split_inclusive_lf (s piece : str) (c : char) :
  In piece (split_inclusive_lf s) -> In c piece -> In c s.
Proof.
  intros Hp Hc. rewrite <- (concat_split_inclusive_lf s). apply in_concat. now exists piece.
Qed.

Lemma join_lf_cons (x : char) (l : str) (ls : list str) :
  join_lf ((x :: l) :: ls) = x :: join_lf (l :: ls).
Proof. destruct ls; reflexivity. Qed.

Lemma ends_with_lf_cons (x : char) (s : str) :
  s <> [] -> ends_with_lf (x :: s) = ends_with_lf s.
Proof.
  intros Hs. unfold ends_with_lf. rewrite strip_suffix_cons by exact Hs.
  now destruct (strip_suffix LF s).
Qed.

(** X6: for contents without ['\r'], [lines] keeps all of the text but the
    separators: joining the lines with ['\n'], and putting back a final
    ['\n'] when the contents ended with one, gives the contents again. *)
Theorem lines_join_roundtrip (s : str) :
  ~ In CR s ->
  join_lf (lines s) ++ (if ends_with_lf s then [LF] else []) = s.
Proof.
  induction s as [|c s IH]; intros Hs; [reflexivity|].
  assert (Hs' : ~ In CR s) by (intros H; apply Hs; now right).
  specialize (IH Hs'). unfold lines in *. simpl.
  destruct (N.eqb_spec c LF) as [->|Hc].
  - destruct s as [|c' s]; [reflexivity|].
    rewrite ends_with_lf_cons in * by discriminate.
    destruct (split_inclusive_lf (c' :: s)) as [|l ls] eqn:E.
    + apply split_inclusive_lf_nil in E. discriminate.
    + simpl in *. now rewrite <- IH at 2.
  - destruct (split_inclusive_lf s) as [|l ls] eqn:E.
    + apply split_inclusive_lf_nil in E. subst s. simpl.
      unfold strip_line_ending, ends_with_lf, strip_suffix. simpl.
      destruct (N.eqb_spec c LF); [contradiction | reflexivity].
    + assert (Hl : l <> []) by (apply (split_inclusive_lf_nonempty s); rewrite E; now left).
      assert (Hne : s <> []) by (intros ->; discriminate).
      assert (Hcl : ~ In CR (c :: l)).
      { intros [H|H]; [apply Hs; now left|].
        apply Hs', (in_split_inclusive_lf s l); [rewrite E; now left | exact H]. }
      cbn [map]. rewrite (strip_line_ending_cons c l Hcl Hl).
      rewrite join_lf_cons, ends_with_lf_cons by exact Hne. cbn [map] in IH.
      cbn [app]. now rewrite IH.
Qed.

(** ** How the matchers compose *)

Lemma number_from_app (k : nat) (l1 l2 : list str) :
  number_from k (l1 ++ l2) = number_from k l1 ++ number_from (k + length l1) l2.
Proof.
  revert k; induction l1 as [|l l1 IH]; intros k; simpl.
  - now rewrite Nat.add_0_r.
  - rewrite IH. now rewrite Nat.add_succ_r.
Qed.

Lemma filter_number_from_shift (g : str -> bool) (k m : nat) (ls : list str) :
  filter (fun '(_, line) => g line) (number_from (k + m) ls) =
  map (fun '(n, line) => (n + m, line)) (filter (fun '(_, line) => g line) (number_from k ls)).
Proof.
  revert k; induction ls as [|l ls IH]; intros k; simpl; [reflexivity|].
  destruct (g l); simpl; rewrite <- IH; reflexivity.
Qed.

Lemma filter_numbered_app (g : str -> bool) (l1 l2 : list str) :
  filter (fun '(_, line) => g line) (number_from 1 (l1 ++ l2)) =
  filter (fun '(_, line) => g line) (number_from 1 l1) ++
  map (fun '(n, line) => (n + length l1, line))
      (filter (fun '(_, line) => g line) (number_from 1 l2)).
Proof.
  rewrite number_from_app, filter_app. f_equal. apply filter_number_from_shift.
Qed.

(** X4: a longer pattern finds fewer lines: if pattern [q] contains pattern
    [p], every entry [search] returns for [q] it also returns for [p]. *)
Theorem search_pattern_monotone (p q contents : str) :
  contains q p = true ->
  forall x, In x (search q contents) -> In x (search p contents).
Proof.
  intros Hqp [n line]. unfold search. rewrite !filter_In. intros [Hin Hc].
  split; [exact Hin|]. cbn beta iota in *.
  apply contains_spec in Hqp as [a' [b' ->]]. apply contains_spec in Hc as [a [b ->]].
  apply contains_spec. exists (a ++ a'), (b' ++ b). now rewrite <- !app_assoc.
Qed.

(** X8: a pattern longer than every line of [contents] gives the empty
    result of [search] (in particular for contents with no lines). *)
Theorem search_pattern_longer_than_lines (pattern contents : str) :
  (forall line, In line (lines contents) -> length line < length pattern) ->
  search pattern contents = [].
Proof.
  intros Hlen. unfold search. apply filter_all_false. intros [n line] Hin.
  apply in_numbered_lines, Hlen in Hin. cbn beta iota.
  apply not_true_is_false. rewrite contains_spec. intros [a [b ->]].
  rewrite !length_app in Hin. lia.
Qed.

Section Extras.

Variable to_lower : char -> list char.
Variables Cased Case_Ignorable : char -> bool.

Local Abbreviation search_ci := (search_case_insensitive to_lower Cased Case_Ignorable).
Local Abbreviation main_t := (main to_lower Cased Case_Ignorable).

(** X3: searching contents cut at the start of a line is searching each part:
    the entries of the second part follow those of the first, with their
    numbers shifted by the number of lines of the first part.  This holds for
    both matchers. *)
Theorem search_concat_at_line_start (pattern pre rest : str) :
  (pre = [] \/ exists p0, pre = p0 ++ [LF]) ->
  search pattern (pre ++ rest) =
    search pattern pre ++
    map (fun '(n, line) => (n + length (lines pre), line)) (search pattern rest) /\
  search_ci pattern (pre ++ rest) =
    search_ci pattern pre ++
    map (fun '(n, line) => (n + length (lines pre), line)) (search_ci pattern rest).
Proof.
  intros Hpre. unfold search, search_case_insensitive.
  rewrite lines_after_line_start by exact Hpre. split.
  - exact (filter_numbered_app (fun line => contains line pattern) _ _).
  - exact (filter_numbered_app
             (fun line => contains (to_lowercase to_lower Cased Case_Ignorable line)
                                   (to_lowercase to_lower Cased Case_Ignorable pattern)) _ _).
Qed.

Local Abbreviation results_of config contents :=
  (if case_sensitive config then search (pattern config) contents
   else search_ci (pattern config) contents).

Local Abbreviation printed xs :=
  (map (fun '(n, line) => Stdout (decimal n ++ [46; 32]%N ++ line ++ [LF])) xs).

Lemma bind_eq {A B} (m : IO A) (k : A -> IO B) (w : World) :
  bind m k w = match m w with
               | (Some a, w') => k a w'
               | (None, w') => (None, w')
               end.
Proof. reflexivity. Qed.

Lemma extend_extend (w : World) (es es' : list event) :
  extend (extend w es) es' = extend w (es ++ es').
Proof. unfold extend. cbn [files write_error trace]. now rewrite app_assoc. Qed.

Lemma run_after_read (config : Config) (w : World) (bytes : list byte) (contents : str) :
  files w (filename config) = Ok bytes -> utf8_decode bytes = Some contents ->
  run to_lower Cased Case_Ignorable config w =
  match for_each (fun '(line_no, line) => println (record line_no line))
                 (results_of config contents) (extend w [ReadFile (filename config)]) with
  | (Some _, w') => (Some (Ok tt), w')
  | (None, w') => (None, w')
  end.
Proof.
  intros Hf Hd. unfold run, read_to_string, bind, emit, ret.
  cbn [files write_error trace extend]. rewrite Hf, Hd.
  now destruct (for_each _ _ _) as [[[]|] w'].
Qed.

(** X2: when the arguments parse and the file reads as UTF-8, [main] reads
    the file and writes the records of the matches, in order, to standard
    output, and nothing else: either all of them, after which it returns
    (exit status 0) without writing to standard error, or the first [k],
    followed by the panic of the first write that failed, with the message
    ["failed printing to stdout: {e}"], and exit status 101.  When standard
    output takes every write, it writes all of them and returns. *)
Theorem main_success_path (env : Env) (args : list str) (config : Config)
    (w : World) (bytes : list byte) (contents : str) :
  config_new env args = Ok config ->
  files w (filename config) = Ok bytes -> utf8_decode bytes = Some contents ->
  (exists k, k <= length (results_of config contents) /\
   ((k = length (results_of config contents) /\
     main_t env args w =
     (Some tt, extend w (ReadFile (filename config) :: printed (results_of config contents)))) \/
    (k < length (results_of config contents) /\ exists e,
       write_error w StdoutStream
         (trace w ++ ReadFile (filename config) ::
            printed (firstn k (results_of config contents))) = Some e /\
       main_t env args w =
       (None, extend w (ReadFile (filename config) ::
                printed (firstn k (results_of config contents)) ++
                [Panic (lit "failed printing to stdout: " ++ io_error_message e);
                 Exit 101%Z]))))) /\
  ((forall t, write_error w StdoutStream t = None) ->
   main_t env args w =
   (Some tt, extend w (ReadFile (filename config) :: printed (results_of config contents)))).
Proof.
  intros Hc Hf Hd.
  pose proof (run_after_read config w bytes contents Hf Hd) as Hrun.
  assert (Hmain : forall w' o,
             run to_lower Cased Case_Ignorable config w = (o, w') ->
             main_t env args w =
             match o with
             | Some (Ok _) => (Some tt, w')
             | Some (Err (IoError e)) =>
                 (_ <- eprintln (lit "Encountered an error: " ++ io_error_message e) ;;
                  exit 1%Z) w'
             | None => (None, w')
             end).
  { intros w' o Ho. unfold main. rewrite Hc, bind_eq, Ho.
    destruct o as [[u|[e]]|]; reflexivity. }
  split.
  - destruct (print_records_outcome (results_of config contents)
                (extend w [ReadFile (filename config)]))
      as [k [Hk [[Hk' H] | [Hk' [e [He H]]]]]].
    + exists k. split; [exact Hk|]. left. split; [exact Hk'|].
      rewrite H in Hrun. rewrite (Hmain _ _ Hrun). now rewrite extend_extend.
    + exists k. split; [exact Hk|]. right. split; [exact Hk'|].
      exists e. split.
      * cbn [extend write_error trace] in He. now rewrite <- app_assoc in He.
      * rewrite H in Hrun. rewrite (Hmain _ _ Hrun). now rewrite extend_extend.
  - intros Hw.
    rewrite for_each_print_records in Hrun by exact Hw.
    rewrite (Hmain _ _ Hrun). now rewrite extend_extend.
Qed.

(** X1: when the arguments parse but the file cannot be read (an error of
    the file system, or bytes that are not UTF-8), [main] attempts the read,
    writes nothing to standard output, and writes ["Encountered an error: "]
    and the error's [Display] to standard error and exits with status 1; if
    that write fails, it panics with ["failed printing to stderr: {e}"] and
    exits with status 101. *)
Theorem main_read_error_path (env : Env) (args : list str) (config : Config)
    (w : World) (e : io_error) :
  config_new env args = Ok config ->
  files w (filename config) = Err e \/
  (e = InvalidUtf8 /\ exists bytes, files w (filename config) = Ok bytes /\
                                    utf8_decode bytes = None) ->
  main_t env args w =
  (None, extend w
           (ReadFile (filename config) ::
            match write_error w StderrStream (trace w ++ [ReadFile (filename config)]) with
            | None => [Stderr (lit "Encountered an error: " ++ io_error_message e ++ [LF]);
                       Exit 1%Z]
            | Some e' => [Panic (lit "failed printing to stderr: " ++ io_error_message e');
                          Exit 101%Z]
            end)).
Proof.
  intros Hc He.
  assert (Hrun : run to_lower Cased Case_Ignorable config w =
                 (Some (Err (IoError e)), extend w [ReadFile (filename config)])).
  { unfold run, read_to_string, bind, emit, ret. cbn [files write_error trace extend].
    destruct He as [He | [-> [bytes [Hf Hd]]]].
    - now rewrite He.
    - now rewrite Hf, Hd. }
  unfold main. rewrite Hc, bind_eq, Hrun. cbv beta iota.
  rewrite bind_eq. unfold eprintln, print_to. cbn [extend write_error trace].
  destruct (write_error w StderrStream (trace w ++ [ReadFile (filename config)])) as [e'|].
  - unfold panic. now rewrite extend_extend.
  - unfold exit. rewrite !extend_extend. reflexivity.
Qed.

End Extras.

(** ** Witnesses of the further properties *)

Lemma main_success_path_witness :
  config_new env_empty args_ust = Ok config_ust /\
  files world_stdout_closed (filename config_ust) = Ok sample_bytes /\
  utf8_decode sample_bytes = Some sample_text /\
  (exists k, k <= length (search (pattern config_ust) sample_text) /\
   ((k = length (search (pattern config_ust) sample_text) /\
     main_sample env_empty args_ust world_stdout_closed =
     (Some tt, extend world_stdout_closed
                 (ReadFile (filename config_ust) ::
                  map (fun '(n, line) => Stdout (decimal n ++ [46; 32]%N ++ line ++ [LF]))
                      (search (pattern config_ust) sample_text)))) \/
    (k < length (search (pattern config_ust) sample_text) /\ exists e,
       write_error world_stdout_closed StdoutStream
         (trace world_stdout_closed ++ ReadFile (filename config_ust) ::
            map (fun '(n, line) => Stdout (decimal n ++ [46; 32]%N ++ line ++ [LF]))
                (firstn k (search (pattern config_ust) sample_text))) = Some e /\
       main_sample env_empty args_ust world_stdout_closed =
       (None, extend world_stdout_closed
                (ReadFile (filename config_ust) ::
                 map (fun '(n, line) => Stdout (decimal n ++ [46; 32]%N ++ line ++ [LF]))
                     (firstn k (search (pattern config_ust) sample_text)) ++
                 [Panic (lit "failed printing to stdout: " ++ io_error_message e);
                  Exit 101%Z]))))).
Proof.
  assert (H1 : config_new env_empty args_ust = Ok config_ust) by (vm_compute; reflexivity).
  assert (H2 : files world_stdout_closed (filename config_ust) = Ok sample_bytes)
    by (vm_compute; reflexivity).
  assert (H3 : utf8_decode sample_bytes = Some sample_text) by (vm_compute; reflexivity).
  split; [exact H1 | split; [exact H2 | split; [exact H3|]]].
  exact (proj1 (main_success_path sample_to_lower sample_Cased sample_Case_Ignorable
                  env_empty args_ust config_ust world_stdout_closed sample_bytes sample_text
                  H1 H2 H3)).
Defined.

Lemma main_read_error_path_witness :
  config_new env_empty args_missing = Ok config_missing /\
  files world_stderr_full (filename config_missing) = Err not_found /\
  main_sample env_empty args_missing world_stderr_full =
  (None, extend world_stderr_full
           (ReadFile (filename config_missing) ::
            match write_error world_stderr_full StderrStream
                    (trace world_stderr_full ++ [ReadFile (filename config_missing)]) with
            | None => [Stderr (lit "Encountered an error: " ++ io_error_message not_found ++ [LF]);
                       Exit 1%Z]
            | Some e' => [Panic (lit "failed printing to stderr: " ++ io_error_message e');
                          Exit 101%Z]
            end)).
Proof.
  assert (H1 : config_new env_empty args_missing = Ok config_missing)
    by (vm_compute; reflexivity).
  assert (H2 : files world_stderr_full (filename config_missing) = Err not_found)
    by (vm_compute; reflexivity).
  split; [exact H1 | split; [exact H2|]].
  exact (main_read_error_path sample_to_lower sample_Cased sample_Case_Ignorable
           env_empty args_missing config_missing world_stderr_full not_found H1 (or_introl H2)).
Defined.

Lemma search_concat_at_line_start_witness :
  (lit "Rust:" ++ [LF] = [] \/ exists p0, lit "Rust:" ++ [LF] = p0 ++ [LF]) /\
  search (lit "ust") (lit "Rust:" ++ [LF] ++ lit "Trust me.") =
    search (lit "ust") (lit "Rust:" ++ [LF]) ++
    map (fun '(n, line) => (n + length (lines (lit "Rust:" ++ [LF])), line))
        (search (lit "ust") (lit "Trust me.")).
Proof.
  assert (H : lit "Rust:" ++ [LF] = [] \/ exists p0, lit "Rust:" ++ [LF] = p0 ++ [LF])
    by (right; now exists (lit "Rust:")).
  split; [exact H|].
  rewrite app_assoc.
  exact (proj1 (search_concat_at_line_start sample_to_lower sample_Cased sample_Case_Ignorable
                  (lit "ust") (lit "Rust:" ++ [LF]) (lit "Trust me.") H)).
Defined.

Lemma search_pattern_monotone_witness :
  contains (lit "Trust") (lit "ust") = true /\
  (forall x, In x (search (lit "Trust") contents_trust) ->
             In x (search (lit "ust") contents_trust)).
Proof.
  assert (H : contains (lit "Trust") (lit "ust") = true) by reflexivity.
  split; [exact H|].
  exact (search_pattern_monotone (lit "ust") (lit "Trust") contents_trust H).
Defined.

Lemma search_pattern_longer_than_lines_witness :
  (forall line, In line (lines contents_trust) ->
                length line < length (lit "a pattern longer than any line")) /\
  search (lit "a pattern longer than any line") contents_trust = [].
Proof.
  assert (H : forall line, In line (lines contents_trust) ->
                           length line < length (lit "a pattern longer than any line")).
  { intros line Hin. vm_compute in Hin.
    repeat (destruct Hin as [<- | Hin]; [apply Nat.ltb_lt; vm_compute; reflexivity|]).
    destruct Hin. }
  split; [exact H|].
  exact (search_pattern_longer_than_lines _ contents_trust H).
Defined.

Lemma lines_line_terminators_witness :
  ~ In LF (lit "ab") /\
  lines (lit "ab" ++ CR :: LF :: lit "c") = lit "ab" :: lines (lit "c").
Proof.
  assert (H : ~ In LF (lit "ab")) by (simpl; intuition discriminate).
  split; [exact H|].
  exact (proj1 (lines_line_terminators (lit "ab") (lit "c") H)).
Defined.

Lemma lines_join_roundtrip_witness :
  ~ In CR contents_trust /\
  join_lf (lines contents_trust) ++
    (if ends_with_lf contents_trust then [LF] else []) = contents_trust.
Proof.
  assert (H : ~ In CR contents_trust) by (vm_compute; intuition discriminate).
  split; [exact H|].
  exact (lines_join_roundtrip contents_trust H).
Defined.
